(** * update_catalog.py: the guarded patch pipeline over catalog.html

    The script reads one document, runs six guarded textual patches over it
    (two block replacements, three anchor insertions and a sixth guarded
    block that only builds two string values) and stops.  Python [str]
    values are modelled as lists of Unicode code points; [x in s],
    [s.replace(old, new)], [s.find(x)], [s.count(x)] and [s.startswith(x)]
    are modelled by executable functions over such lists. *)

From Stdlib Require Import String Ascii.
From Stdlib Require Import List Arith Lia Bool NArith.
Import ListNotations.

(** ** Python string operations over an arbitrary alphabet *)

Module PyStr.
Section Ops.
Context {A : Type}.
Variable eqb : A -> A -> bool.

(** [s.startswith(p)] *)
Fixpoint startswith (s p : list A) {struct p} : bool :=
  match p, s with
  | [], _ => true
  | _ :: _, [] => false
  | a :: p', b :: s' => eqb a b && startswith s' p'
  end.

(** [p in s] *)
Fixpoint contains (p s : list A) : bool :=
  startswith s p ||
  match s with
  | [] => false
  | _ :: s' => contains p s'
  end.

(** [s.find(p)], with [None] for -1 *)
Fixpoint find (p s : list A) : option nat :=
  if startswith s p then Some 0
  else match s with
       | [] => None
       | _ :: s' => option_map S (find p s')
       end.

(** The scan of [s.replace(old, new)] for a non-empty [old]: left to
    right, every occurrence found is replaced and the scan resumes just
    after it.  [skip] counts the characters of the occurrence that are
    still to be stepped over. *)
Fixpoint replace_skip (old new : list A) (skip : nat) (s : list A) : list A :=
  match s with
  | [] => []
  | c :: s' =>
      match skip with
      | S k => replace_skip old new k s'
      | O =>
          if startswith s old
          then new ++ replace_skip old new (length old - 1) s'
          else c :: replace_skip old new 0 s'
      end
  end.

(** [s.replace(old, new)]; an empty [old] matches before every character
    and at the end. *)
Definition replace (old new s : list A) : list A :=
  match old with
  | [] => new ++ flat_map (fun c => c :: new) s
  | _ :: _ => replace_skip old new 0 s
  end.

(** [s.count(old)]: the number of non-overlapping occurrences. *)
Fixpoint count_skip (old : list A) (skip : nat) (s : list A) : nat :=
  match s with
  | [] => 0
  | _ :: s' =>
      match skip with
      | S k => count_skip old k s'
      | O =>
          if startswith s old
          then S (count_skip old (length old - 1) s')
          else count_skip old 0 s'
      end
  end.

Definition count (old s : list A) : nat :=
  match old with
  | [] => S (length s)
  | _ :: _ => count_skip old 0 s
  end.

(** *** Overlap analysis of two literals *)

(** [x] and [y] agree on their common length. *)
Definition compat (x y : list A) : bool := startswith x y || startswith y x.

(** No occurrence of [p] in any [u ++ m ++ v] reaches beyond the first
    [c] characters of [m] while starting before its last [d] ones. *)
Definition touch_free (p m : list A) (c d : nat) : bool :=
  forallb (fun k => negb (c <? length p - k) || negb (compat (skipn k p) m))
          (seq 1 (length p - 1))
  && forallb (fun k => negb (c <? k + length p) || negb (compat p (skipn k m)))
             (seq 0 (length m - d)).

(** Length of the longest common prefix, and suffix. *)
Fixpoint lcp (x y : list A) : nat :=
  match x, y with
  | a :: x', b :: y' => if eqb a b then S (lcp x' y') else 0
  | _, _ => 0
  end.

Definition lcs (x y : list A) : nat := lcp (rev x) (rev y).

(** Rewriting one [old] into [new] cannot bring a new [p] into being. *)
Definition creates_none (p old new : list A) : bool :=
  touch_free p new (lcp old new) (lcs old new).

(** Rewriting [old] into [new] neither creates nor destroys a [p]. *)
Definition transparent (p old new : list A) : bool :=
  creates_none p old new && creates_none p new old.

(** After [replace old new] no [old] is left. *)
Definition self_clean (old new : list A) : bool :=
  (lcp old new <? length old) && touch_free old new (lcp old new) 0.

(** No proper non-empty suffix of [p] is a prefix of [p]. *)
Definition border_free (p : list A) : bool :=
  forallb (fun k => negb (startswith p (skipn k p))) (seq 1 (length p - 1)).

(** [x] is [y] with some characters left out, matched greedily. *)
Fixpoint is_subseq (x y : list A) {struct y} : bool :=
  match x, y with
  | [], _ => true
  | _ :: _, [] => false
  | a :: x', b :: y' => if eqb a b then is_subseq x' y' else is_subseq x y'
  end.

End Ops.
End PyStr.

(** [Subseq x y]: [y] is [x] with characters inserted, none removed or
    changed. *)
Inductive Subseq {A : Type} : list A -> list A -> Prop :=
| Subseq_nil : Subseq [] []
| Subseq_keep a x y : Subseq x y -> Subseq (a :: x) (a :: y)
| Subseq_skip a x y : Subseq x y -> Subseq x (a :: y).

(** ** The script *)

(** A Python [str] is a sequence of Unicode code points. *)
Abbreviation char := N.
Abbreviation text := (list char).

(** A literal of the script, as the sequence of its code points. *)
Definition lit (s : string) : text := map N_of_ascii (list_ascii_of_string s).

Definition py_in (x s : text) : bool := PyStr.contains N.eqb x s.
Definition py_replace (s old new : text) : text := PyStr.replace N.eqb old new s.
Definition py_find (s x : text) : option nat := PyStr.find N.eqb x s.
Definition py_count (s x : text) : nat := PyStr.count N.eqb x s.

(** *** Literals (lines 7, 8, 13, 14, 18 to 75, 80, 84, 89, 90) *)

Definition original_block : text := lit
"        .product-image {
            background: var(--bg-light);
            padding: 20px;
            display: flex;
            justify-content: center;
            align-items: center;
            height: 220px;
        }".

Definition updated_block : text := lit
"        .product-image {
            background: var(--bg-light);
            padding: 20px;
            display: flex;
            justify-content: center;
            align-items: center;
            height: 220px;
            position: relative;
            overflow: hidden;
        }".

Definition img_block : text := lit
"        .product-image img {
            max-width: 100%;
            max-height: 100%;
            object-fit: contain;
        }".

Definition img_updated : text := lit
"        .product-image img {
            max-width: 100%;
            max-height: 100%;
            object-fit: contain;
            transition: opacity 0.3s ease;
        }".

Definition carousel_css : text := lit
"
        .product-image.carousel .carousel-nav {
            position: absolute;
            top: 50%;
            transform: translateY(-50%);
            background: rgba(35, 31, 32, 0.65);
            color: var(--white);
            border: none;
            width: 32px;
            height: 32px;
            border-radius: 50%;
            display: flex;
            align-items: center;
            justify-content: center;
            cursor: pointer;
            opacity: 0;
            transition: opacity 0.2s ease;
        }

        .product-image.carousel:hover .carousel-nav {
            opacity: 1;
        }

        .product-image.carousel .carousel-nav.prev {
            left: 12px;
        }

        .product-image.carousel .carousel-nav.next {
            right: 12px;
        }

        .product-image.carousel .carousel-indicators {
            position: absolute;
            bottom: 12px;
            left: 50%;
            transform: translateX(-50%);
            display: flex;
            gap: 6px;
        }

        .product-image.carousel .carousel-indicators span {
            width: 8px;
            height: 8px;
            border-radius: 50%;
            background: rgba(255, 255, 255, 0.35);
            transition: background 0.2s ease;
        }

        .product-image.carousel .carousel-indicators span.active {
            background: var(--psi-red);
        }

        @media (hover: none) {
            .product-image.carousel .carousel-nav {
                opacity: 1;
            }
        }
".

Definition newline : text := lit "
".

(** Line 76. *)
Definition marker : text := img_updated ++ newline.

Definition insert_point : text := lit
"        const filterElements = {
            publisher: null,
            category: null,
            priceBand: null,
            sort: null,
            clear: null,
            count: null
        };

        let filtersBound = false;
".

Definition timers_probe : text := lit "const carouselTimers".

Definition timers_decl : text := lit
"
        const carouselTimers = new Map();

".

Definition cache_marker : text := lit
"        function cacheFilterElements() {
            if (filterElements.publisher) return;
            filterElements.publisher = document.getElementById('filterPublisher');
            filterElements.category = document.getElementById('filterCategory');
            filterElements.priceBand = document.getElementById('filterPriceBand');
            filterElements.sort = document.getElementById('sortProducts');
            filterElements.clear = document.getElementById('clearFiltersButton');
            filterElements.count = document.getElementById('productsCount');
        }

".

Definition clear_probe : text := lit "function clearCarouselTimers".

Definition clear_fn : text := lit
"        function clearCarouselTimers() {
            carouselTimers.forEach(id => clearInterval(id));
            carouselTimers.clear();
        }

".

Definition images_probe : text := lit "function getProductImages".

Definition primary_marker : text := lit
"        function productPrimaryImage(product) {
            if (product.primaryImage) return product.primaryImage;
            if (product.images && product.images.main) return product.images.main;
            if (product.images && product.images.front) return product.images.front;
            return 'psi.svg';
        }

".

Definition get_images_fn : text := lit
"        function getProductImages(product) {
            const sources = [
                product.primaryImage,
                product.images && product.images.main,
                product.images && product.images.front,
                product.images && product.images.angle,
                product.images && product.images.pack
            ];
            const unique = [];
            const seen = new Set();
            sources.forEach(source => {
                const sanitized = sanitizeImageUrl(source);
                if (sanitized && !seen.has(sanitized)) {
                    seen.add(sanitized);
                    unique.append(sanitized);
                }
            });
            if (!unique):
                pass
        }
".

(** *** The six guarded statements (lines 9 to 90), each as a function of
    the current value of the variable [text] *)

(** Lines 9, 10. *)
Definition patch_container (t : text) : text :=
  if py_in original_block t then py_replace t original_block updated_block else t.

(** Lines 15, 16. *)
Definition patch_img (t : text) : text :=
  if py_in img_block t then py_replace t img_block img_updated else t.

(** Lines 77, 78. *)
Definition insert_carousel_css (t : text) : text :=
  if negb (py_in carousel_css t)
  then py_replace t marker (marker ++ carousel_css)
  else t.

(** Lines 81, 82. *)
Definition insert_timers (t : text) : text :=
  if negb (py_in timers_probe t)
  then py_replace t insert_point (insert_point ++ timers_decl)
  else t.

(** Lines 85, 86. *)
Definition insert_clear_timers (t : text) : text :=
  if negb (py_in clear_probe t)
  then py_replace t cache_marker (cache_marker ++ clear_fn)
  else t.

(** Lines 88 to 90: the body binds two local names and the file ends. *)
Definition scaffold_get_images (t : text) : text :=
  if negb (py_in images_probe t)
  then
    let primary_marker' := primary_marker in
    let get_images_fn' := get_images_fn in
    t
  else t.

(** The whole in-memory pipeline, lines 6 to 90. *)
Definition apply_patches (t : text) : text :=
  scaffold_get_images
    (insert_clear_timers
       (insert_timers
          (insert_carousel_css
             (patch_img
                (patch_container t))))).

(** *** The process: storage in, storage and the final [text] out *)

Definition storage := string -> option text.

Definition catalog_path : string := "catalog.html".

Record finished := Finished { disk : storage; text_var : text }.

(** [Path.read_text] raises when the file is missing. *)
Inductive outcome :=
| Completed (st : finished)
| Raised.

(** Lines 1 to 90.  After [read_text] the script never touches storage. *)
Definition run (fs : storage) : outcome :=
  match fs catalog_path with
  | None => Raised
  | Some t => Completed (Finished fs (apply_patches t))
  end.

(** The rules as data: guard, target searched for, replacement text. *)
Inductive rule := Container | Img | CarouselCss | Timers | ClearTimers | GetImages.

Definition rule_step (r : rule) : text -> text :=
  match r with
  | Container => patch_container
  | Img => patch_img
  | CarouselCss => insert_carousel_css
  | Timers => insert_timers
  | ClearTimers => insert_clear_timers
  | GetImages => scaffold_get_images
  end.

Definition all_rules : list rule :=
  [Container; Img; CarouselCss; Timers; ClearTimers; GetImages].

(** The condition of each [if]. *)
Definition guard (r : rule) (t : text) : bool :=
  match r with
  | Container => py_in original_block t
  | Img => py_in img_block t
  | CarouselCss => negb (py_in carousel_css t)
  | Timers => negb (py_in timers_probe t)
  | ClearTimers => negb (py_in clear_probe t)
  | GetImages => negb (py_in images_probe t)
  end.

(** The effect of the body of each [if] on the variable [text]. *)
Definition action (r : rule) (t : text) : text :=
  match r with
  | Container => py_replace t original_block updated_block
  | Img => py_replace t img_block img_updated
  | CarouselCss => py_replace t marker (marker ++ carousel_css)
  | Timers => py_replace t insert_point (insert_point ++ timers_decl)
  | ClearTimers => py_replace t cache_marker (cache_marker ++ clear_fn)
  | GetImages => t
  end.

(** The text a rule's [replace] searches for: the before-block of a
    replacement, the anchor of an insertion; the sixth statement has no
    [replace]. *)
Definition target (r : rule) : option text :=
  match r with
  | Container => Some original_block
  | Img => Some img_block
  | CarouselCss => Some marker
  | Timers => Some insert_point
  | ClearTimers => Some cache_marker
  | GetImages => None
  end.

(** What an insertion appends to its anchor. *)
Definition inserted (r : rule) : option text :=
  match r with
  | CarouselCss => Some carousel_css
  | Timers => Some timers_decl
  | ClearTimers => Some clear_fn
  | Container | Img | GetImages => None
  end.

(** The effect of a rule is there: for a replacement, the after-block is
    present and the before-block gone; for the other rules, the text the
    guard probes for is present. *)
Definition effect_present (r : rule) (t : text) : bool :=
  match r with
  | Container => py_in updated_block t && negb (py_in original_block t)
  | Img => py_in img_updated t && negb (py_in img_block t)
  | CarouselCss => py_in carousel_css t
  | Timers => py_in timers_probe t
  | ClearTimers => py_in clear_probe t
  | GetImages => py_in images_probe t
  end.

(** No rule has anything left to do on [t]. *)
Definition settled (t : text) : Prop :=
  py_in original_block t = false /\
  py_in img_block t = false /\
  (py_in carousel_css t = true \/ py_in marker t = false) /\
  (py_in timers_probe t = true \/ py_in insert_point t = false) /\
  (py_in clear_probe t = true \/ py_in cache_marker t = false).

(** Rewriting [old] into [new] brings no new [p] into being; breaks up no
    [p]; does neither. *)
Abbreviation fresh p old new := (PyStr.creates_none N.eqb p old new = true).
Abbreviation lasting p old new := (PyStr.creates_none N.eqb p new old = true).
Abbreviation untouched p old new := (PyStr.transparent N.eqb p old new = true).

(** A storage holding one file. *)
Definition single_file (name : string) (content : text) : storage :=
  fun p => if String.eqb p name then Some content else None.

Section PyStrFacts.
Context {A : Type}.
Variable eqb : A -> A -> bool.
Hypothesis eqb_eq : forall x y, eqb x y = true <-> x = y.

Local Abbreviation startswith := (@PyStr.startswith A eqb).
Local Abbreviation contains := (@PyStr.contains A eqb).
Local Abbreviation find := (@PyStr.find A eqb).
Local Abbreviation replace := (@PyStr.replace A eqb).
Local Abbreviation replace_skip := (@PyStr.replace_skip A eqb).
Local Abbreviation count := (@PyStr.count A eqb).
Local Abbreviation count_skip := (@PyStr.count_skip A eqb).
Local Abbreviation compat := (@PyStr.compat A eqb).
Local Abbreviation touch_free := (@PyStr.touch_free A eqb).
Local Abbreviation lcp := (@PyStr.lcp A eqb).
Local Abbreviation lcs := (@PyStr.lcs A eqb).
Local Abbreviation creates_none := (@PyStr.creates_none A eqb).
Local Abbreviation transparent := (@PyStr.transparent A eqb).
Local Abbreviation self_clean := (@PyStr.self_clean A eqb).
Local Abbreviation border_free := (@PyStr.border_free A eqb).

(** *** Basic facts *)

Lemma startswith_iff s p :
  startswith s p = true <-> exists v, s = p ++ v.
Proof.
  revert s; induction p as [|a p IH]; intros s; simpl.
  - split; [intros _; now exists s | reflexivity].
  - destruct s as [|b s].
    + split; [discriminate | intros [v Hv]; discriminate].
    + rewrite andb_true_iff, eqb_eq, IH. split.
      * intros [-> [v ->]]. now exists v.
      * intros [v Hv]. injection Hv as -> ->. split; [reflexivity | now exists v].
Qed.

Lemma startswith_app p v : startswith (p ++ v) p = true.
Proof. apply startswith_iff. now exists v. Qed.

Lemma contains_iff p s :
  contains p s = true <-> exists u v, s = u ++ p ++ v.
Proof.
  induction s as [|c s IH]; simpl; rewrite orb_true_iff, startswith_iff.
  - split.
    + intros [[v Hv] | H]; [|discriminate]. exists [], v. exact Hv.
    + intros [u [v H]]. left. destruct u; [now exists v | discriminate].
  - rewrite IH. split.
    + intros [[v Hv] | [u [v Hv]]].
      * exists [], v. exact Hv.
      * exists (c :: u), v. simpl. now rewrite Hv.
    + intros [u [v H]]. destruct u as [|c' u].
      * left. now exists v.
      * right. injection H as -> ->. now exists u, v.
Qed.

Lemma contains_app_intro p u v : contains p (u ++ p ++ v) = true.
Proof. apply contains_iff. now exists u, v. Qed.

Lemma contains_false_iff p s :
  contains p s = false <-> forall u v, s <> u ++ p ++ v.
Proof.
  rewrite <- not_true_iff_false, contains_iff. split.
  - intros H u v E. apply H. now exists u, v.
  - intros H [u [v E]]. exact (H u v E).
Qed.

Lemma contains_cons_false p c s :
  contains p (c :: s) = false ->
  startswith (c :: s) p = false /\ contains p s = false.
Proof. cbn [contains]. intros H. now apply orb_false_iff in H. Qed.

(** Splitting two equal concatenations at the shorter left part. *)
Lemma app_split_le (u u' x y : list A) :
  u' ++ x = u ++ y -> length u' <= length u ->
  exists w, u = u' ++ w /\ x = w ++ y.
Proof.
  revert u; induction u' as [|a u' IH]; intros u E L; simpl in *.
  - exists u. now split.
  - destruct u as [|b u]; simpl in *; [lia|].
    injection E as -> E. destruct (IH u E) as [w [-> ->]]; [lia|].
    now exists w.
Qed.

Lemma app_eq_compat (x y a b : list A) :
  x ++ a = y ++ b -> compat x y = true.
Proof.
  intros E. unfold compat. apply orb_true_iff.
  destruct (Nat.le_ge_cases (length x) (length y)) as [L|L].
  - right. destruct (app_split_le _ _ _ _ E L) as [w [-> _]].
    apply startswith_app.
  - left. symmetry in E. destruct (app_split_le _ _ _ _ E L) as [w [-> _]].
    apply startswith_app.
Qed.

(** *** The scan of [replace], unfolded *)

Lemma replace_skip_drop old new xs r :
  replace_skip old new (length xs) (xs ++ r) = replace_skip old new 0 r.
Proof. induction xs as [|x xs IH]; simpl; auto. Qed.

Lemma count_skip_drop old xs r :
  count_skip old (length xs) (xs ++ r) = count_skip old 0 r.
Proof. induction xs as [|x xs IH]; simpl; auto. Qed.

Lemma replace_nil old new : old <> [] -> replace old new [] = [].
Proof. destruct old; [congruence | reflexivity]. Qed.

Lemma replace_match old new r :
  old <> [] -> replace old new (old ++ r) = new ++ replace old new r.
Proof.
  intros Hne. destruct old as [|a o]; [congruence|].
  unfold replace. generalize (startswith_app (a :: o) r).
  change ((a :: o) ++ r) with (a :: (o ++ r)). cbn [PyStr.replace_skip].
  intros ->. f_equal.
  replace (length (a :: o) - 1) with (length o) by (simpl; lia).
  apply replace_skip_drop.
Qed.

Lemma replace_mismatch old new c r :
  startswith (c :: r) old = false ->
  replace old new (c :: r) = c :: replace old new r.
Proof.
  intros H. destruct old as [|a o]; [discriminate|].
  unfold replace. cbn [PyStr.replace_skip]. now rewrite H.
Qed.

Lemma count_match old r :
  old <> [] -> count old (old ++ r) = S (count old r).
Proof.
  intros Hne. destruct old as [|a o]; [congruence|].
  unfold count. generalize (startswith_app (a :: o) r).
  change ((a :: o) ++ r) with (a :: (o ++ r)). cbn [PyStr.count_skip].
  intros ->. f_equal.
  replace (length (a :: o) - 1) with (length o) by (simpl; lia).
  apply count_skip_drop.
Qed.

Lemma count_mismatch old c r :
  startswith (c :: r) old = false -> count old (c :: r) = count old r.
Proof.
  intros H. destruct old as [|a o]; [discriminate|].
  unfold count. cbn [PyStr.count_skip]. now rewrite H.
Qed.

(** Induction along the scan: at each position either an occurrence of
    [old] starts, and the scan jumps over it, or one character is kept. *)
Lemma scan_ind old (P : list A -> Prop) :
  old <> [] ->
  P [] ->
  (forall r, P r -> P (old ++ r)) ->
  (forall c r, startswith (c :: r) old = false -> P r -> P (c :: r)) ->
  forall s, P s.
Proof.
  intros Hne Hnil Hm Hs s.
  assert (G : forall n s, length s <= n -> P s).
  { induction n as [|n IH]; intros [|c r] L; simpl in L; try exact Hnil; [lia|].
    destruct (startswith (c :: r) old) eqn:E.
    - apply startswith_iff in E. destruct E as [v E]. rewrite E.
      apply Hm, IH. apply (f_equal (@length A)) in E.
      rewrite length_app in E. simpl in E.
      destruct old; [congruence|]. simpl in E. lia.
    - apply Hs; [exact E|]. apply IH. lia. }
  exact (G (length s) s (Nat.le_refl _)).
Qed.

Lemma contains_nil_false p : p <> [] -> contains p [] = false.
Proof. destruct p; [congruence | reflexivity]. Qed.

Lemma contains_cons_intro p c s :
  contains p s = true -> contains p (c :: s) = true.
Proof. intros H. cbn [PyStr.contains]. rewrite H. apply orb_true_r. Qed.

Lemma contains_mismatch p c s :
  startswith (c :: s) p = false -> contains p (c :: s) = contains p s.
Proof. intros H. cbn [PyStr.contains]. now rewrite H. Qed.

(** A text without [old] is returned as it is. *)
Lemma replace_absent old new s :
  contains old s = false -> replace old new s = s.
Proof.
  induction s as [|c s IH]; intros H.
  - destruct old; [discriminate | reflexivity].
  - apply contains_cons_false in H. destruct H as [H1 H2].
    rewrite replace_mismatch by exact H1. now rewrite IH.
Qed.

(** [replace] never shortens when [new] is at least as long as [old]. *)
Lemma replace_length_ge old new s :
  old <> [] -> length old <= length new ->
  length s <= length (replace old new s).
Proof.
  intros Hne L. pattern s. apply (scan_ind old); [exact Hne | ..].
  - rewrite replace_nil by exact Hne. apply Nat.le_refl.
  - intros r IH. rewrite replace_match by exact Hne.
    rewrite !length_app. lia.
  - intros c r E IH. rewrite replace_mismatch by exact E. simpl. lia.
Qed.

(** When [old] is there, [new] is there afterwards. *)
Lemma replace_present old new s :
  old <> [] -> contains old s = true ->
  contains new (replace old new s) = true.
Proof.
  intros Hne. pattern s. apply (scan_ind old); [exact Hne | ..].
  - rewrite contains_nil_false by exact Hne. discriminate.
  - intros r _ _. rewrite replace_match by exact Hne.
    apply (contains_app_intro new []).
  - intros c r E IH H. rewrite contains_mismatch in H by exact E.
    rewrite replace_mismatch by exact E. apply contains_cons_intro, IH, H.
Qed.

(** The first occurrence, as [find] reports it, is where the first
    replacement happens; the text before it is kept and the text after
    it is scanned in the same way. *)
Lemma replace_at_find old new s i :
  old <> [] -> find old s = Some i ->
  s = firstn i s ++ old ++ skipn (i + length old) s /\
  replace old new s =
    firstn i s ++ new ++ replace old new (skipn (i + length old) s).
Proof.
  intros Hne. revert i. induction s as [|c s IH]; intros i; cbn [PyStr.find].
  - destruct (startswith [] old) eqn:E; [|discriminate].
    apply startswith_iff in E. destruct E as [v E].
    destruct old; [congruence | discriminate].
  - destruct (startswith (c :: s) old) eqn:E.
    + intros [= <-]. apply startswith_iff in E. destruct E as [v E].
      rewrite E. cbn [firstn app Nat.add].
      rewrite skipn_app, skipn_all, Nat.sub_diag. cbn [skipn app].
      split; [reflexivity | apply replace_match, Hne].
    + destruct (find old s) as [j|] eqn:F; [|discriminate].
      intros [= <-]. destruct (IH j eq_refl) as [E1 E2].
      cbn [firstn Nat.add skipn]. rewrite replace_mismatch by exact E.
      rewrite <- !app_comm_cons.
      split; [f_equal; exact E1 | f_equal; exact E2].
Qed.

Lemma count_zero_absent old s :
  old <> [] -> count old s = 0 -> contains old s = false.
Proof.
  intros Hne. pattern s. apply (scan_ind old); [exact Hne | ..].
  - intros _. apply contains_nil_false, Hne.
  - intros r _. rewrite count_match by exact Hne. discriminate.
  - intros c r E IH H. rewrite count_mismatch in H by exact E.
    rewrite contains_mismatch by exact E. apply IH, H.
Qed.

Lemma count_at_find old s i :
  old <> [] -> find old s = Some i ->
  count old s = S (count old (skipn (i + length old) s)).
Proof.
  intros Hne. revert i. induction s as [|c s IH]; intros i; cbn [PyStr.find].
  - destruct (startswith [] old) eqn:E; [|discriminate].
    apply startswith_iff in E. destruct E as [v E].
    destruct old; [congruence | discriminate].
  - destruct (startswith (c :: s) old) eqn:E.
    + intros [= <-]. apply startswith_iff in E. destruct E as [v E].
      rewrite E. cbn [Nat.add].
      rewrite skipn_app, skipn_all, Nat.sub_diag. cbn [skipn app].
      apply count_match, Hne.
    + destruct (find old s) as [j|] eqn:F; [|discriminate].
      intros [= <-]. cbn [Nat.add skipn].
      rewrite count_mismatch by exact E. apply IH, eq_refl.
Qed.

(** A block that occurs once is replaced in place. *)
Lemma replace_once old new s i :
  old <> [] -> find old s = Some i -> count old s = 1 ->
  replace old new s = firstn i s ++ new ++ skipn (i + length old) s.
Proof.
  intros Hne F C. destruct (replace_at_find old new s i Hne F) as [_ ->].
  rewrite (count_at_find old s i Hne F) in C. injection C as C.
  now rewrite (replace_absent old new _ (count_zero_absent old _ Hne C)).
Qed.

(** *** Where an occurrence can lie *)

Lemma forallb_seq_at (f : nat -> bool) a n k :
  forallb f (seq a n) = true -> a <= k < a + n -> f k = true.
Proof.
  intros H Hk. rewrite forallb_forall in H. apply H, in_seq. exact Hk.
Qed.

Lemma skipn_length_app (w r : list A) : skipn (length w) (w ++ r) = r.
Proof. now rewrite skipn_app, skipn_all, Nat.sub_diag. Qed.

(** An occurrence of [p] in [u ++ m ++ v] ends within the first [c]
    characters of [m] or starts within its last [d] ones. *)
Lemma touch_free_sound p m c d u v u' v' :
  touch_free p m c d = true ->
  u' ++ p ++ v' = u ++ m ++ v ->
  length u' + length p <= length u + c \/
  length u + length m - d <= length u'.
Proof.
  intros T E. unfold PyStr.touch_free in T.
  apply andb_true_iff in T. destruct T as [Ta Tb].
  destruct (Nat.le_gt_cases (length u' + length p) (length u + c)) as [|L1];
    [now left|].
  destruct (Nat.le_gt_cases (length u + length m - d) (length u')) as [|L2];
    [now right|].
  exfalso. destruct (Nat.le_gt_cases (length u) (length u')) as [L|L].
  - (* the occurrence starts inside [m] *)
    symmetry in E. destruct (app_split_le _ _ _ _ E L) as [w [Eu Em]].
    assert (Lw : length u' = length u + length w)
      by (rewrite Eu; apply length_app).
    symmetry in Em.
    destruct (app_split_le m w (p ++ v') v Em) as [w2 [Em2 Ep]]; [lia|].
    pose proof (app_eq_compat _ _ _ _ Ep) as C.
    assert (Sk : skipn (length w) m = w2)
      by (rewrite Em2; apply skipn_length_app).
    pose proof (forallb_seq_at _ _ _ (length w) Tb ltac:(lia)) as F.
    cbv beta in F. rewrite Sk, C in F.
    replace (c <? length w + length p) with true in F
      by (symmetry; apply Nat.ltb_lt; lia).
    discriminate.
  - (* the occurrence starts before [m] *)
    destruct (app_split_le u u' (p ++ v') (m ++ v) E) as [w [Eu Ep]]; [lia|].
    assert (Lw : length u = length u' + length w)
      by (rewrite Eu; apply length_app).
    symmetry in Ep.
    destruct (app_split_le p w (m ++ v) v' Ep) as [w2 [Ep2 Em]]; [lia|].
    symmetry in Em. pose proof (app_eq_compat _ _ _ _ Em) as C.
    assert (Sk : skipn (length w) p = w2)
      by (rewrite Ep2; apply skipn_length_app).
    pose proof (forallb_seq_at _ _ _ (length w) Ta ltac:(lia)) as F.
    cbv beta in F. rewrite Sk, C in F.
    replace (c <? length p - length w) with true in F
      by (symmetry; apply Nat.ltb_lt; lia).
    discriminate.
Qed.

Lemma lcp_split x y :
  exists w x1 y1, x = w ++ x1 /\ y = w ++ y1 /\ length w = lcp x y.
Proof.
  revert y; induction x as [|a x IH]; intros y.
  - now exists [], [], y.
  - destruct y as [|b y]; [now exists [], (a :: x), []|].
    cbn [PyStr.lcp]. destruct (eqb a b) eqn:E.
    + apply eqb_eq in E. subst b.
      destruct (IH y) as (w & x1 & y1 & -> & -> & L).
      exists (a :: w), x1, y1. simpl. now rewrite L.
    + now exists [], (a :: x), (b :: y).
Qed.

Lemma lcs_split x y :
  exists w x1 y1, x = x1 ++ w /\ y = y1 ++ w /\ length w = lcs x y.
Proof.
  unfold PyStr.lcs.
  destruct (lcp_split (rev x) (rev y)) as (w & x1 & y1 & Ex & Ey & L).
  exists (rev w), (rev x1), (rev y1). rewrite <- !rev_app_distr, <- Ex, <- Ey.
  now rewrite !rev_involutive, length_rev.
Qed.

(** *** One rewriting step in context *)

Lemma rewrite_creates_none p old new u v :
  creates_none p old new = true ->
  contains p (u ++ new ++ v) = true -> contains p (u ++ old ++ v) = true.
Proof.
  intros T H. apply contains_iff in H. destruct H as (u' & v' & E).
  symmetry in E.
  destruct (touch_free_sound _ _ _ _ _ _ _ _ T E) as [L|L].
  - destruct (lcp_split old new) as (w & o1 & n1 & Eo & En & Lw).
    assert (E' : (u' ++ p) ++ v' = (u ++ w) ++ n1 ++ v).
    { rewrite <- !app_assoc. rewrite E, En. now rewrite <- app_assoc. }
    destruct (app_split_le (u ++ w) (u' ++ p) v' (n1 ++ v) E') as [z [Ez _]];
      [rewrite !length_app; lia|].
    apply contains_iff. exists u', (z ++ o1 ++ v).
    transitivity ((u ++ w) ++ o1 ++ v).
    { rewrite Eo at 1. now rewrite <- !app_assoc. }
    rewrite Ez. now rewrite <- !app_assoc.
  - destruct (lcs_split old new) as (w & o2 & n2 & Eo & En & Lw).
    assert (E' : (u ++ n2) ++ w ++ v = u' ++ p ++ v').
    { rewrite E, En. now rewrite <- !app_assoc. }
    assert (Ln : length new = length n2 + length w)
      by (rewrite En at 1; apply length_app).
    destruct (app_split_le u' (u ++ n2) (w ++ v) (p ++ v') E') as [z [_ Ez]];
      [rewrite length_app; lia|].
    apply contains_iff. exists (u ++ o2 ++ z), v'.
    rewrite Eo at 1. rewrite <- !app_assoc. now rewrite Ez.
Qed.

(** *** The whole scan *)

Lemma replace_creates_none_in p old new :
  old <> [] -> creates_none p old new = true ->
  forall s u,
    contains p (u ++ replace old new s) = true -> contains p (u ++ s) = true.
Proof.
  intros Hne T s. pattern s. apply (scan_ind old); [exact Hne | ..].
  - intros u. now rewrite replace_nil.
  - intros r IH u H. rewrite replace_match in H by exact Hne.
    apply (rewrite_creates_none p old new u r T).
    rewrite app_assoc. apply IH. now rewrite <- app_assoc.
  - intros c r E IH u H. rewrite replace_mismatch in H by exact E.
    change (u ++ c :: r) with (u ++ [c] ++ r). rewrite app_assoc.
    apply IH. now rewrite <- app_assoc.
Qed.

Lemma replace_destroys_none_in p old new :
  old <> [] -> creates_none p new old = true ->
  forall s u,
    contains p (u ++ s) = true -> contains p (u ++ replace old new s) = true.
Proof.
  intros Hne T s. pattern s. apply (scan_ind old); [exact Hne | ..].
  - intros u. now rewrite replace_nil.
  - intros r IH u H. rewrite replace_match by exact Hne.
    rewrite app_assoc. apply IH. rewrite <- app_assoc.
    exact (rewrite_creates_none p new old u r T H).
  - intros c r E IH u H. rewrite replace_mismatch by exact E.
    change (u ++ c :: replace old new r) with (u ++ [c] ++ replace old new r).
    rewrite app_assoc. apply IH. now rewrite <- app_assoc.
Qed.

(** What is absent stays absent. *)
Lemma replace_keeps_absent p old new s :
  old <> [] -> creates_none p old new = true ->
  contains p s = false -> contains p (replace old new s) = false.
Proof.
  intros Hne T H. apply not_true_iff_false. intros C.
  apply (replace_creates_none_in p old new Hne T s []) in C.
  simpl in C. congruence.
Qed.

(** What is present stays present. *)
Lemma replace_keeps_present p old new s :
  old <> [] -> creates_none p new old = true ->
  contains p s = true -> contains p (replace old new s) = true.
Proof.
  intros Hne T H. exact (replace_destroys_none_in p old new Hne T s [] H).
Qed.

Lemma replace_transparent p old new s :
  old <> [] -> transparent p old new = true ->
  contains p (replace old new s) = contains p s.
Proof.
  intros Hne T. apply andb_true_iff in T. destruct T as [T1 T2].
  destruct (contains p s) eqn:C.
  - now apply replace_keeps_present.
  - now apply replace_keeps_absent.
Qed.

Lemma self_clean_nonempty old new : self_clean old new = true -> old <> [].
Proof.
  unfold PyStr.self_clean. intros H. apply andb_true_iff in H.
  destruct H as [H _]. apply Nat.ltb_lt in H. intros ->. simpl in H. lia.
Qed.

(** After the scan no [old] is left. *)
Lemma replace_self_clean old new s :
  self_clean old new = true -> contains old (replace old new s) = false.
Proof.
  intros SC. pose proof (self_clean_nonempty old new SC) as Hne.
  unfold PyStr.self_clean in SC. apply andb_true_iff in SC.
  destruct SC as [Lc T]. apply Nat.ltb_lt in Lc.
  assert (G : forall s u,
             (forall u' v', u ++ s = u' ++ old ++ v' -> length u <= length u') ->
             forall u' v', u ++ replace old new s <> u' ++ old ++ v').
  { clear s. intros s. pattern s. apply (scan_ind old); [exact Hne | ..].
    - intros u I u' v' E. rewrite replace_nil in E by exact Hne.
      pose proof (I u' v' E) as L. apply (f_equal (@length A)) in E.
      rewrite !length_app in E. simpl in E.
      destruct old; [congruence | simpl in E; lia].
    - intros r IH u I. rewrite replace_match by exact Hne.
      rewrite app_assoc. apply IH. intros u' v' E.
      rewrite <- app_assoc in E. symmetry in E.
      destruct (touch_free_sound _ _ _ _ _ _ _ _ T E) as [L|L];
        [|rewrite length_app; lia].
      exfalso.
      destruct (lcp_split old new) as (w & o1 & n1 & Eo & En & Lw).
      assert (E' : (u' ++ old) ++ v' = (u ++ w) ++ n1 ++ r).
      { rewrite <- !app_assoc. rewrite E. rewrite En at 1.
        now rewrite <- app_assoc. }
      destruct (app_split_le (u ++ w) (u' ++ old) v' (n1 ++ r) E')
        as [z [Ez _]]; [rewrite !length_app; lia|].
      assert (E2 : u ++ old ++ r = u' ++ old ++ z ++ o1 ++ r).
      { transitivity ((u ++ w) ++ o1 ++ r).
        - rewrite Eo at 1. now rewrite <- !app_assoc.
        - rewrite Ez. now rewrite <- !app_assoc. }
      specialize (I _ _ E2). lia.
    - intros c r E IH u I. rewrite replace_mismatch by exact E.
      change (u ++ c :: replace old new r)
        with (u ++ [c] ++ replace old new r).
      rewrite app_assoc. apply IH. intros u' v' E'.
      rewrite <- app_assoc in E'. cbn [app] in E'.
      pose proof (I u' v' E') as L.
      destruct (app_split_le u' u (c :: r) (old ++ v') E' L) as [w [Eu Ew]].
      destruct w as [|x w].
      + exfalso. simpl in Ew. rewrite Ew, startswith_app in E. discriminate.
      + rewrite Eu, !length_app. simpl. lia. }
  apply contains_false_iff. intros u' v' E.
  apply (G s [] (fun u' v' _ => Nat.le_0_l _) u' v'). exact E.
Qed.

(** A block without self-overlap is replaced wherever it occurs, and
    the scan resumes right after that occurrence. *)
Lemma replace_through old new u v :
  old <> [] -> border_free old = true ->
  exists w, replace old new (u ++ old ++ v) = w ++ new ++ replace old new v.
Proof.
  intros Hne B.
  assert (G : forall n u, length u <= n ->
             exists w, replace old new (u ++ old ++ v)
                       = w ++ new ++ replace old new v).
  { clear u. induction n as [|n IH]; intros [|c u] L; simpl in L; try lia.
    - exists []. cbn [app]. apply replace_match, Hne.
    - exists []. cbn [app]. apply replace_match, Hne.
    - destruct (startswith ((c :: u) ++ old ++ v) old) eqn:E.
      + apply startswith_iff in E. destruct E as [x E].
        destruct (Nat.le_gt_cases (length old) (length (c :: u))) as [Lo|Lo].
        * symmetry in E.
          destruct (app_split_le (c :: u) old x (old ++ v) E Lo) as [z [Ez _]].
          rewrite Ez, <- app_assoc.
          rewrite replace_match by exact Hne.
          destruct (IH z) as [w Hw].
          { apply (f_equal (@length A)) in Ez. rewrite length_app in Ez.
            simpl in Ez. destruct old; [congruence | simpl in Ez; lia]. }
          exists (new ++ w). rewrite Hw. now rewrite <- app_assoc.
        * exfalso.
          destruct (app_split_le old (c :: u) (old ++ v) x E) as [z [Ez Ex]];
            [lia|].
          assert (Sk : skipn (length (c :: u)) old = z)
            by (rewrite Ez; apply skipn_length_app).
          assert (Lz : length z <= length old)
            by (rewrite Ez, length_app; lia).
          assert (S : startswith old z = true).
          { destruct (app_split_le old z x v (eq_sym Ex) Lz) as [y [Ey _]].
            rewrite Ey. apply startswith_app. }
          pose proof (forallb_seq_at _ _ _ (length (c :: u)) B) as F.
          cbv beta in F. rewrite Sk, S in F.
          simpl in F, Lo. specialize (F ltac:(lia)). discriminate.
      + change ((c :: u) ++ old ++ v) with (c :: (u ++ old ++ v)) in *.
        rewrite replace_mismatch by exact E.
        destruct (IH u) as [w Hw]; [lia|].
        exists (c :: w). now rewrite Hw. }
  exact (G (length u) u (Nat.le_refl _)).
Qed.

End PyStrFacts.

(** ** The literals of the script, compared by evaluation *)

Module Literals.

Ltac by_eval := vm_compute; reflexivity.

Ltac nonempty :=
  let H := fresh "H" in
  intros H; apply (f_equal (@length char)) in H; vm_compute in H;
  discriminate H.

Lemma original_block_ne : original_block <> []. Proof. nonempty. Qed.
Lemma img_block_ne : img_block <> []. Proof. nonempty. Qed.
Lemma marker_ne : marker <> []. Proof. nonempty. Qed.
Lemma insert_point_ne : insert_point <> []. Proof. nonempty. Qed.
Lemma cache_marker_ne : cache_marker <> []. Proof. nonempty. Qed.

Lemma lengths :
  length original_block = 226 /\ length updated_block = 288 /\
  length img_block = 130 /\ length img_updated = 173 /\
  length marker = 174 /\ length insert_point = 238 /\
  length cache_marker = 583.
Proof. repeat split; by_eval. Qed.

(** The two replacements leave no before-block behind. *)
Lemma container_clean :
  PyStr.self_clean N.eqb original_block updated_block = true.
Proof. by_eval. Qed.

Lemma img_clean : PyStr.self_clean N.eqb img_block img_updated = true.
Proof. by_eval. Qed.

Lemma img_block_border_free : PyStr.border_free N.eqb img_block = true.
Proof. by_eval. Qed.

(** No later rule brings [original_block] back. *)
Lemma original_block_fresh :
  fresh original_block img_block img_updated /\
  fresh original_block marker (marker ++ carousel_css) /\
  fresh original_block insert_point (insert_point ++ timers_decl) /\
  fresh original_block cache_marker (cache_marker ++ clear_fn).
Proof. repeat split; by_eval. Qed.

(** No other rule brings [img_block] into being. *)
Lemma img_block_fresh :
  fresh img_block original_block updated_block /\
  fresh img_block marker (marker ++ carousel_css) /\
  fresh img_block insert_point (insert_point ++ timers_decl) /\
  fresh img_block cache_marker (cache_marker ++ clear_fn).
Proof. repeat split; by_eval. Qed.

(** Only the img replacement can bring the carousel anchor into being. *)
Lemma marker_fresh :
  fresh marker original_block updated_block /\
  fresh marker insert_point (insert_point ++ timers_decl) /\
  fresh marker cache_marker (cache_marker ++ clear_fn).
Proof. repeat split; by_eval. Qed.

Lemma insert_point_fresh :
  fresh insert_point original_block updated_block /\
  fresh insert_point img_block img_updated /\
  fresh insert_point marker (marker ++ carousel_css) /\
  fresh insert_point cache_marker (cache_marker ++ clear_fn).
Proof. repeat split; by_eval. Qed.

Lemma cache_marker_fresh :
  fresh cache_marker original_block updated_block /\
  fresh cache_marker img_block img_updated /\
  fresh cache_marker marker (marker ++ carousel_css) /\
  fresh cache_marker insert_point (insert_point ++ timers_decl).
Proof. repeat split; by_eval. Qed.

(** The carousel CSS is not brought into being by the replacements and
    not broken up by the two later insertions. *)
Lemma carousel_css_fresh :
  fresh carousel_css original_block updated_block /\
  fresh carousel_css img_block img_updated.
Proof. repeat split; by_eval. Qed.

Lemma carousel_css_lasting :
  lasting carousel_css insert_point (insert_point ++ timers_decl) /\
  lasting carousel_css cache_marker (cache_marker ++ clear_fn).
Proof. repeat split; by_eval. Qed.

Lemma marker_css_lasting :
  lasting (marker ++ carousel_css) insert_point (insert_point ++ timers_decl) /\
  lasting (marker ++ carousel_css) cache_marker (cache_marker ++ clear_fn).
Proof. repeat split; by_eval. Qed.

Lemma timers_probe_lasting :
  lasting timers_probe cache_marker (cache_marker ++ clear_fn).
Proof. by_eval. Qed.

Lemma img_block_newline_lasting :
  lasting (img_block ++ newline) original_block updated_block.
Proof. by_eval. Qed.

(** No rule creates or destroys the text the sixth guard probes for. *)
Lemma images_probe_untouched :
  untouched images_probe original_block updated_block /\
  untouched images_probe img_block img_updated /\
  untouched images_probe marker (marker ++ carousel_css) /\
  untouched images_probe insert_point (insert_point ++ timers_decl) /\
  untouched images_probe cache_marker (cache_marker ++ clear_fn).
Proof. repeat split; by_eval. Qed.

(** What each insertion guard probes for is part of what is inserted. *)
Lemma probes_inserted :
  py_in carousel_css (marker ++ carousel_css) = true /\
  py_in timers_probe (insert_point ++ timers_decl) = true /\
  py_in clear_probe (cache_marker ++ clear_fn) = true.
Proof. repeat split; by_eval. Qed.

Lemma img_block_head : img_block = 32%N :: tl img_block.
Proof. by_eval. Qed.

Lemma newline_eq : newline = [10%N].
Proof. reflexivity. Qed.

Lemma marker_css_parts :
  py_in img_updated (marker ++ carousel_css) = true /\
  py_in carousel_css (marker ++ carousel_css) = true.
Proof. split; by_eval. Qed.

End Literals.

(** ** The operations of the script on code points *)

Module Steps.
Import Literals.

Lemma py_in_iff p t : py_in p t = true <-> exists u v, t = u ++ p ++ v.
Proof. apply (contains_iff N.eqb N.eqb_eq). Qed.

Lemma py_in_trans a b t :
  py_in a b = true -> py_in b t = true -> py_in a t = true.
Proof.
  rewrite !py_in_iff. intros (x & y & ->) (u & v & ->).
  exists (u ++ x), (y ++ v). now rewrite <- !app_assoc.
Qed.

Lemma py_replace_absent t old new :
  py_in old t = false -> py_replace t old new = t.
Proof. apply replace_absent. Qed.

Lemma py_replace_present t old new :
  old <> [] -> py_in old t = true -> py_in new (py_replace t old new) = true.
Proof. apply (replace_present N.eqb N.eqb_eq). Qed.

Lemma py_keeps_absent p t old new :
  old <> [] -> fresh p old new ->
  py_in p t = false -> py_in p (py_replace t old new) = false.
Proof. apply (replace_keeps_absent N.eqb N.eqb_eq). Qed.

Lemma py_keeps_present p t old new :
  old <> [] -> lasting p old new ->
  py_in p t = true -> py_in p (py_replace t old new) = true.
Proof. apply (replace_keeps_present N.eqb N.eqb_eq). Qed.

Lemma py_untouched p t old new :
  old <> [] -> untouched p old new ->
  py_in p (py_replace t old new) = py_in p t.
Proof. apply (replace_transparent N.eqb N.eqb_eq). Qed.

Lemma py_replace_length t old new :
  old <> [] -> length old <= length new ->
  length t <= length (py_replace t old new).
Proof. apply (replace_length_ge N.eqb N.eqb_eq). Qed.

(** A guarded [replace], whatever its guard. *)
Lemma guarded_absent (g : bool) p t old new :
  old <> [] -> fresh p old new -> py_in p t = false ->
  py_in p (if g then py_replace t old new else t) = false.
Proof. destruct g; [apply py_keeps_absent | auto]. Qed.

Lemma guarded_present (g : bool) p t old new :
  old <> [] -> lasting p old new -> py_in p t = true ->
  py_in p (if g then py_replace t old new else t) = true.
Proof. destruct g; [apply py_keeps_present | auto]. Qed.

Lemma guarded_untouched (g : bool) p t old new :
  old <> [] -> untouched p old new ->
  py_in p (if g then py_replace t old new else t) = py_in p t.
Proof. destruct g; [apply py_untouched | auto]. Qed.

Lemma guarded_miss (g : bool) t old new :
  py_in old t = false -> (if g then py_replace t old new else t) = t.
Proof. destruct g; [apply py_replace_absent | auto]. Qed.

Lemma guarded_length (g : bool) t old new :
  old <> [] -> length old <= length new ->
  length t <= length (if g then py_replace t old new else t).
Proof. destruct g; [apply py_replace_length | auto]. Qed.

(** The guard of a replacement is implied by its [replace]. *)
Lemma patch_container_eq t :
  patch_container t = py_replace t original_block updated_block.
Proof.
  unfold patch_container. destruct (py_in original_block t) eqn:E;
    [reflexivity | symmetry; now apply py_replace_absent].
Qed.

Lemma patch_img_eq t : patch_img t = py_replace t img_block img_updated.
Proof.
  unfold patch_img. destruct (py_in img_block t) eqn:E;
    [reflexivity | symmetry; now apply py_replace_absent].
Qed.

Lemma scaffold_get_images_id t : scaffold_get_images t = t.
Proof. unfold scaffold_get_images. now destruct (negb _). Qed.

Lemma rule_step_eq r t :
  rule_step r t = if guard r t then action r t else t.
Proof. destruct r; reflexivity. Qed.

Lemma apply_patches_fold t :
  apply_patches t = fold_left (fun acc r => rule_step r acc) all_rules t.
Proof. reflexivity. Qed.

(** A rule whose target is not in the text changes nothing. *)
Lemma rule_miss r x t :
  target r = Some x -> py_in x t = false -> rule_step r t = t.
Proof.
  intros T H. rewrite rule_step_eq.
  destruct r; cbn [target] in T; try discriminate; injection T as <-;
    cbn [action]; now apply guarded_miss.
Qed.

(** *** What a full pass leaves behind *)

Lemma settled_fixed t : settled t -> apply_patches t = t.
Proof.
  intros (H1 & H2 & H3 & H4 & H5). unfold apply_patches.
  pose proof (rule_miss Container original_block t eq_refl H1) as E1.
  pose proof (rule_miss Img img_block t eq_refl H2) as E2.
  cbn [rule_step] in E1, E2. rewrite E1, E2.
  assert (E3 : insert_carousel_css t = t).
  { destruct H3 as [H|H];
      [unfold insert_carousel_css; now rewrite H
      | exact (rule_miss CarouselCss marker t eq_refl H)]. }
  assert (E4 : insert_timers t = t).
  { destruct H4 as [H|H];
      [unfold insert_timers; now rewrite H
      | exact (rule_miss Timers insert_point t eq_refl H)]. }
  assert (E5 : insert_clear_timers t = t).
  { destruct H5 as [H|H];
      [unfold insert_clear_timers; now rewrite H
      | exact (rule_miss ClearTimers cache_marker t eq_refl H)]. }
  rewrite E3, E4, E5. apply scaffold_get_images_id.
Qed.

(** An insertion leaves its probe in the text or had no anchor. *)
Lemma insertion_settles probe anchor ins t :
  anchor <> [] -> py_in probe (anchor ++ ins) = true ->
  let t' := if negb (py_in probe t)
            then py_replace t anchor (anchor ++ ins) else t in
  py_in probe t' = true \/ py_in anchor t' = false.
Proof.
  intros Hne P. cbv zeta. destruct (py_in probe t) eqn:E; cbn [negb].
  - now left.
  - destruct (py_in anchor t) eqn:F.
    + left. apply (py_in_trans _ _ _ P). now apply py_replace_present.
    + right. now rewrite py_replace_absent.
Qed.

Lemma apply_patches_settled t : settled (apply_patches t).
Proof.
  destruct original_block_fresh as (o2 & o3 & o4 & o5).
  destruct img_block_fresh as (_ & i3 & i4 & i5).
  destruct marker_fresh as (_ & m4 & m5).
  destruct insert_point_fresh as (_ & _ & _ & p5).
  destruct carousel_css_lasting as (c4 & c5).
  destruct probes_inserted as (q3 & q4 & q5).
  unfold apply_patches. rewrite scaffold_get_images_id.
  set (t1 := patch_container t). set (t2 := patch_img t1).
  set (t3 := insert_carousel_css t2). set (t4 := insert_timers t3).
  assert (A1 : py_in original_block t1 = false).
  { unfold t1. rewrite patch_container_eq.
    apply (replace_self_clean N.eqb N.eqb_eq), container_clean. }
  assert (A2 : py_in original_block t2 = false).
  { unfold t2. rewrite patch_img_eq.
    apply py_keeps_absent; auto using img_block_ne. }
  assert (B2 : py_in img_block t2 = false).
  { unfold t2. rewrite patch_img_eq.
    apply (replace_self_clean N.eqb N.eqb_eq), img_clean. }
  assert (C3 : py_in carousel_css t3 = true \/ py_in marker t3 = false).
  { apply insertion_settles; [apply marker_ne | exact q3]. }
  assert (D4 : py_in timers_probe t4 = true \/ py_in insert_point t4 = false).
  { apply insertion_settles; [apply insert_point_ne | exact q4]. }
  repeat split.
  - repeat (apply guarded_absent;
            auto using marker_ne, insert_point_ne, cache_marker_ne).
  - repeat (apply guarded_absent;
            auto using marker_ne, insert_point_ne, cache_marker_ne).
  - destruct C3 as [C|C]; [left | right].
    + repeat (apply guarded_present;
              auto using insert_point_ne, cache_marker_ne).
    + repeat (apply guarded_absent;
              auto using insert_point_ne, cache_marker_ne).
  - destruct D4 as [D|D]; [left | right].
    + apply guarded_present;
        auto using cache_marker_ne, timers_probe_lasting.
    + apply guarded_absent; auto using cache_marker_ne.
  - apply insertion_settles; [apply cache_marker_ne | exact q5].
Qed.

End Steps.

(** ** The properties of the patch pipeline *)

Import Literals.

(** C1. Idempotence of the full pipeline: for every text, running the six
    guarded rules twice in succession gives the same text as running them
    once; a text that already reflects every rule is a fixed point. *)
Theorem apply_patches_idempotent (t : text) :
  apply_patches (apply_patches t) = apply_patches t.
Proof. apply Steps.settled_fixed, Steps.apply_patches_settled. Qed.

(** After [read_text] succeeds the run completes, with the storage it
    started from. *)
Lemma run_completes (fs : storage) (t : text) :
  fs catalog_path = Some t ->
  run fs = Completed (Finished fs (apply_patches t)).
Proof. unfold run. now intros ->. Qed.

(** C2. Write-back, evaluated on a storage whose catalog.html holds the
    unpatched container block: the run completes, the variable [text]
    holds the patched block, and the stored file still holds the
    unpatched one. *)
Theorem run_leaves_stored_file_unpatched :
  exists st,
    run (single_file catalog_path original_block) = Completed st /\
    text_var st = updated_block /\
    disk st catalog_path = Some original_block /\
    disk st catalog_path <> Some (text_var st).
Proof.
  eexists. split; [apply run_completes; reflexivity|].
  cbn [text_var disk].
  assert (E : apply_patches original_block = updated_block) by by_eval.
  rewrite E. repeat split.
  intros H. apply (f_equal (option_map (@length char))) in H.
  vm_compute in H. discriminate H.
Qed.

(** C3, as stated, fails: with the anchor twice in the text, the content
    is inserted after both occurrences, not after the first one only. *)
Lemma insertion_not_first_only :
  ~ (forall r a c t i,
        target r = Some a -> inserted r = Some c -> guard r t = true ->
        py_find t a = Some i ->
        rule_step r t = firstn i t ++ a ++ c ++ skipn (i + length a) t).
Proof.
  intros H.
  specialize (H Timers insert_point timers_decl (insert_point ++ insert_point)
                0 eq_refl eq_refl ltac:(by_eval) ltac:(by_eval)).
  apply (f_equal (@length char)) in H. vm_compute in H. discriminate H.
Qed.

(** C3, amended.  When an insertion rule fires on a text whose first
    occurrence of the anchor is at index [i], the output is the text up to
    and including that occurrence, then the inserted content, then the
    remainder of the text treated by the same [replace] (the content goes
    after every further occurrence of the anchor); when the remainder has
    no further occurrence, it is unchanged. *)
Theorem insertion_splices_after_anchor r a c t i :
  target r = Some a -> inserted r = Some c -> guard r t = true ->
  py_find t a = Some i ->
  t = firstn i t ++ a ++ skipn (i + length a) t /\
  rule_step r t
  = firstn i t ++ a ++ c ++ py_replace (skipn (i + length a) t) a (a ++ c) /\
  (py_in a (skipn (i + length a) t) = false ->
   rule_step r t = firstn i t ++ a ++ c ++ skipn (i + length a) t).
Proof.
  intros T I G F. rewrite Steps.rule_step_eq, G.
  assert (Hne : a <> []).
  { destruct r; cbn [target] in T; try discriminate; injection T as <-;
      auto using original_block_ne, img_block_ne, marker_ne, insert_point_ne,
        cache_marker_ne. }
  assert (A : action r t = py_replace t a (a ++ c)).
  { destruct r; cbn [target inserted] in T, I; try discriminate;
      injection T as <-; injection I as <-; reflexivity. }
  destruct (replace_at_find N.eqb N.eqb_eq a (a ++ c) t i Hne F) as [E1 E2].
  change (py_replace t a (a ++ c)
          = firstn i t ++ (a ++ c)
              ++ py_replace (skipn (i + length a) t) a (a ++ c)) in E2.
  rewrite A, E2, <- !app_assoc.
  repeat split; [exact E1|].
  intros M. now rewrite (Steps.py_replace_absent _ _ _ M).
Qed.

Lemma insertion_splices_after_anchor_witness :
  let t := lit "<script>" ++ insert_point ++ lit "</script>" in
  rule_step Timers t
  = firstn 8 t ++ insert_point ++ timers_decl ++ skipn (8 + length insert_point) t.
Proof.
  refine (proj2 (proj2 (insertion_splices_after_anchor
                          Timers insert_point timers_decl _ 8
                          eq_refl eq_refl _ _)) _); by_eval.
Defined.

(** C4. A text that contains none of the before-blocks and none of the
    anchors is returned unchanged. *)
Theorem absent_targets_noop (t : text) :
  py_in original_block t = false -> py_in img_block t = false ->
  py_in marker t = false -> py_in insert_point t = false ->
  py_in cache_marker t = false ->
  apply_patches t = t.
Proof. intros. apply Steps.settled_fixed. repeat split; auto. Qed.

Lemma absent_targets_noop_witness :
  apply_patches (lit "<html><body>catalog</body></html>")
  = lit "<html><body>catalog</body></html>".
Proof. apply absent_targets_noop; by_eval. Defined.

(** C7. A rule that does not find its before-block or anchor leaves the
    current text as it is, and the run goes through all six rules and
    completes: once the file has been read, nothing in the pipeline can
    fail. *)
Theorem rule_miss_is_silent (fs : storage) (t : text) :
  fs catalog_path = Some t ->
  (exists st,
      run fs = Completed st /\
      text_var st = fold_left (fun acc r => rule_step r acc) all_rules t) /\
  (forall r x s, target r = Some x -> py_in x s = false -> rule_step r s = s).
Proof.
  intros H. split.
  - eexists. split; [apply run_completes, H | reflexivity].
  - exact Steps.rule_miss.
Qed.

Lemma rule_miss_is_silent_witness :
  (exists st,
      run (single_file catalog_path (lit "<html></html>")) = Completed st /\
      text_var st
      = fold_left (fun acc r => rule_step r acc) all_rules (lit "<html></html>")) /\
  (forall r x s, target r = Some x -> py_in x s = false -> rule_step r s = s).
Proof. apply rule_miss_is_silent. reflexivity. Defined.

(** C8, as stated, fails: the timer insertion fires on the empty text
    (its guard finds no declaration), its [replace] finds no anchor, and
    the declaration is still absent afterwards. *)
Lemma action_without_anchor_has_no_effect :
  ~ (forall r t, guard r t = true -> effect_present r (action r t) = true).
Proof.
  intros H. specialize (H Timers [] ltac:(by_eval)).
  vm_compute in H. discriminate H.
Qed.

(** C8, amended.  For each of the five rules that have a [replace]:
    when the guard lets the rule fire and the text holds the rule's
    before-block or anchor, the effect is present in the resulting text
    and the guard no longer lets the rule fire. *)
Theorem action_establishes_effect r x t :
  target r = Some x -> py_in x t = true -> guard r t = true ->
  effect_present r (action r t) = true /\ guard r (action r t) = false.
Proof.
  destruct probes_inserted as (q3 & q4 & q5).
  intros T P G.
  destruct r; cbn [target] in T; try discriminate; injection T as <-;
    cbn [effect_present action guard].
  - pose proof (replace_self_clean N.eqb N.eqb_eq _ _ t container_clean) as C.
    fold (py_replace t original_block updated_block) in C.
    fold (py_in original_block (py_replace t original_block updated_block)) in C.
    rewrite C, (Steps.py_replace_present _ _ _ original_block_ne P). now split.
  - pose proof (replace_self_clean N.eqb N.eqb_eq _ _ t img_clean) as C.
    fold (py_replace t img_block img_updated) in C.
    fold (py_in img_block (py_replace t img_block img_updated)) in C.
    rewrite C, (Steps.py_replace_present _ _ _ img_block_ne P). now split.
  - rewrite (Steps.py_in_trans _ _ _ q3
               (Steps.py_replace_present _ _ _ marker_ne P)). now split.
  - rewrite (Steps.py_in_trans _ _ _ q4
               (Steps.py_replace_present _ _ _ insert_point_ne P)). now split.
  - rewrite (Steps.py_in_trans _ _ _ q5
               (Steps.py_replace_present _ _ _ cache_marker_ne P)). now split.
Qed.

Lemma action_establishes_effect_witness :
  effect_present Timers (action Timers insert_point) = true /\
  guard Timers (action Timers insert_point) = false.
Proof.
  apply (action_establishes_effect Timers insert_point insert_point eq_refl);
    by_eval.
Defined.

(** C9. The sixth guarded statement never changes the text, and the text
    it probes for is in the output of the pipeline exactly when it is in
    the input. *)
Theorem sixth_step_is_inert (t : text) :
  scaffold_get_images t = t /\
  py_in images_probe (apply_patches t) = py_in images_probe t.
Proof.
  destruct images_probe_untouched as (u1 & u2 & u3 & u4 & u5).
  split; [apply Steps.scaffold_get_images_id|].
  unfold apply_patches. rewrite Steps.scaffold_get_images_id.
  unfold insert_clear_timers, insert_timers, insert_carousel_css, patch_img,
    patch_container.
  rewrite !Steps.guarded_untouched;
    auto using original_block_ne, img_block_ne, marker_ne, insert_point_ne,
      cache_marker_ne.
Qed.

(** C10. The patched text is never shorter than the input. *)
Theorem apply_patches_length (t : text) :
  length t <= length (apply_patches t).
Proof.
  destruct lengths as (l1 & l2 & l3 & l4 & _).
  unfold apply_patches. rewrite Steps.scaffold_get_images_id.
  unfold insert_clear_timers, insert_timers, insert_carousel_css, patch_img,
    patch_container.
  repeat (etransitivity; [|apply Steps.guarded_length]);
    auto using original_block_ne, img_block_ne, marker_ne, insert_point_ne,
      cache_marker_ne;
    rewrite ?length_app, ?l1, ?l2, ?l3, ?l4; lia.
Qed.

(** C5, as stated, fails for the img-block rule: replacing the only
    [img_block] of a text in which no other target occurs can bring the
    carousel anchor into being, and the carousel CSS is then inserted
    outside the span of the block. *)
Lemma img_replacement_not_local :
  ~ (forall t i,
        py_find t img_block = Some i -> py_count t img_block = 1 ->
        py_in original_block t = false -> py_in marker t = false ->
        py_in insert_point t = false -> py_in cache_marker t = false ->
        apply_patches t
        = firstn i t ++ img_updated ++ skipn (i + length img_block) t).
Proof.
  intros H.
  specialize (H (img_block ++ newline) 0 ltac:(by_eval) ltac:(by_eval)
                ltac:(by_eval) ltac:(by_eval) ltac:(by_eval) ltac:(by_eval)).
  apply (f_equal (@length char)) in H. vm_compute in H. discriminate H.
Qed.

(** C5, amended.  When the before-block of a replacement rule occurs once
    in the text, at index [i], and no other rule's before-block or anchor
    occurs in it: for the container rule the output is the text with the
    before-block replaced by the after-block in place; for the img-block
    rule the output is that text passed through the carousel insertion,
    which leaves it as it is when the replacement has not brought the
    carousel anchor into being or the carousel CSS is already there. *)
Theorem replacement_is_local (t : text) (i : nat) :
  (py_find t original_block = Some i -> py_count t original_block = 1 ->
   py_in img_block t = false -> py_in marker t = false ->
   py_in insert_point t = false -> py_in cache_marker t = false ->
   apply_patches t
   = firstn i t ++ updated_block ++ skipn (i + length original_block) t)
  /\
  (py_find t img_block = Some i -> py_count t img_block = 1 ->
   py_in original_block t = false -> py_in marker t = false ->
   py_in insert_point t = false -> py_in cache_marker t = false ->
   let t' := firstn i t ++ img_updated ++ skipn (i + length img_block) t in
   apply_patches t = insert_carousel_css t' /\
   (py_in marker t' = false \/ py_in carousel_css t' = true ->
    apply_patches t = t')).
Proof.
  split.
  - intros F C HI HM HP HC.
    destruct img_block_fresh as (fi & _). destruct marker_fresh as (fm & _).
    destruct insert_point_fresh as (fp & _).
    destruct cache_marker_fresh as (fc & _).
    pose proof (replace_once N.eqb N.eqb_eq original_block updated_block t i
                  original_block_ne F C) as R.
    change (py_replace t original_block updated_block
            = firstn i t ++ updated_block
                ++ skipn (i + length original_block) t) in R.
    unfold apply_patches. rewrite Steps.patch_container_eq.
    set (t1 := py_replace t original_block updated_block) in *.
    assert (I1 : py_in img_block t1 = false)
      by (apply Steps.py_keeps_absent; auto using original_block_ne).
    assert (M1 : py_in marker t1 = false)
      by (apply Steps.py_keeps_absent; auto using original_block_ne).
    assert (P1 : py_in insert_point t1 = false)
      by (apply Steps.py_keeps_absent; auto using original_block_ne).
    assert (C1 : py_in cache_marker t1 = false)
      by (apply Steps.py_keeps_absent; auto using original_block_ne).
    pose proof (Steps.rule_miss Img _ t1 eq_refl I1) as E2.
    pose proof (Steps.rule_miss CarouselCss _ t1 eq_refl M1) as E3.
    pose proof (Steps.rule_miss Timers _ t1 eq_refl P1) as E4.
    pose proof (Steps.rule_miss ClearTimers _ t1 eq_refl C1) as E5.
    cbn [rule_step] in E2, E3, E4, E5.
    rewrite E2, E3, E4, E5, Steps.scaffold_get_images_id. exact R.
  - intros F C HO HM HP HC. cbv zeta.
    destruct insert_point_fresh as (_ & fp2 & fp3 & _).
    destruct cache_marker_fresh as (_ & fc2 & fc3 & _).
    pose proof (replace_once N.eqb N.eqb_eq img_block img_updated t i
                  img_block_ne F C) as R.
    change (py_replace t img_block img_updated
            = firstn i t ++ img_updated ++ skipn (i + length img_block) t) in R.
    assert (E : apply_patches t
                = insert_carousel_css (py_replace t img_block img_updated)).
    { unfold apply_patches.
      pose proof (Steps.rule_miss Container _ t eq_refl HO) as E1.
      cbn [rule_step] in E1. rewrite E1, Steps.patch_img_eq.
      set (t2 := py_replace t img_block img_updated).
      set (t3 := insert_carousel_css t2).
      assert (P3 : py_in insert_point t3 = false).
      { apply Steps.guarded_absent; [apply marker_ne | exact fp3 |].
        apply Steps.py_keeps_absent; auto using img_block_ne. }
      assert (C3 : py_in cache_marker t3 = false).
      { apply Steps.guarded_absent; [apply marker_ne | exact fc3 |].
        apply Steps.py_keeps_absent; auto using img_block_ne. }
      pose proof (Steps.rule_miss Timers _ t3 eq_refl P3) as E4.
      pose proof (Steps.rule_miss ClearTimers _ t3 eq_refl C3) as E5.
      cbn [rule_step] in E4, E5.
      now rewrite E4, E5, Steps.scaffold_get_images_id. }
    rewrite E, R. split; [reflexivity|].
    intros [M|Cs].
    + exact (Steps.rule_miss CarouselCss marker _ eq_refl M).
    + unfold insert_carousel_css. now rewrite Cs.
Qed.

Lemma replacement_is_local_witness :
  (let t := lit "<style>" ++ original_block ++ lit "</style>" in
   apply_patches t
   = firstn 7 t ++ updated_block ++ skipn (7 + length original_block) t) /\
  (let t := lit "<style>" ++ img_block ++ lit "</style>" in
   apply_patches t
   = firstn 7 t ++ img_updated ++ skipn (7 + length img_block) t).
Proof.
  split; cbv zeta.
  - apply (proj1 (replacement_is_local _ 7)); by_eval.
  - refine (proj2 (proj2 (replacement_is_local _ 7) _ _ _ _ _ _) _);
      try by_eval.
    left. by_eval.
Defined.

(** C6, as stated, fails: the carousel anchor is the updated img block
    followed by a line break, so a text whose img block is replaced but
    not followed by a line break gets no carousel CSS. *)
Lemma carousel_needs_line_break :
  ~ (forall t,
        py_in img_block t = true -> py_in carousel_css t = false ->
        py_in img_updated (patch_img (patch_container t)) = true ->
        py_in img_updated (apply_patches t) = true /\
        py_in carousel_css (apply_patches t) = true).
Proof.
  intros H.
  destruct (H img_block ltac:(by_eval) ltac:(by_eval) ltac:(by_eval))
    as [_ C].
  vm_compute in C. discriminate C.
Qed.

(** C6, amended.  The anchor of the carousel rule is the updated img
    block followed by a line break.  The img replacement brings it into
    being in every text that holds the img before-block followed by a line
    break; and for every text without the carousel CSS in which the anchor
    is there once the img replacement has run, one pass gives a text with
    the updated img block and with the carousel CSS right after the
    anchor. *)
Theorem img_then_carousel (t : text) :
  (py_in (img_block ++ newline) t = true ->
   py_in marker (patch_img (patch_container t)) = true) /\
  (py_in carousel_css t = false ->
   py_in marker (patch_img (patch_container t)) = true ->
   py_in (marker ++ carousel_css) (apply_patches t) = true /\
   py_in img_updated (apply_patches t) = true /\
   py_in carousel_css (apply_patches t) = true).
Proof.
  destruct carousel_css_fresh as (f1 & f2).
  destruct marker_css_lasting as (k4 & k5).
  destruct marker_css_parts as (s1 & s2).
  unfold apply_patches. rewrite Steps.scaffold_get_images_id.
  set (t1 := patch_container t). set (t2 := patch_img t1).
  split.
  - intros P.
    assert (P1 : py_in (img_block ++ newline) t1 = true).
    { unfold t1. rewrite Steps.patch_container_eq.
      apply Steps.py_keeps_present;
        auto using original_block_ne, img_block_newline_lasting. }
    apply Steps.py_in_iff in P1. destruct P1 as (u & v & E).
    unfold t2. rewrite Steps.patch_img_eq, E, <- app_assoc.
    unfold py_replace.
    destruct (replace_through N.eqb N.eqb_eq img_block img_updated u
                (newline ++ v) img_block_ne img_block_border_free) as [w ->].
    rewrite newline_eq. cbn [app]. rewrite replace_mismatch.
    2:{ rewrite img_block_head. reflexivity. }
    apply Steps.py_in_iff.
    exists w, (PyStr.replace N.eqb img_block img_updated v).
    unfold marker. rewrite newline_eq, <- app_assoc. reflexivity.
  - intros Q M2.
    assert (Q2 : py_in carousel_css t2 = false).
    { unfold t2, t1. rewrite Steps.patch_img_eq, Steps.patch_container_eq.
      repeat (apply Steps.py_keeps_absent;
              auto using original_block_ne, img_block_ne). }
    set (t3 := insert_carousel_css t2).
    assert (K3 : py_in (marker ++ carousel_css) t3 = true).
    { unfold t3, insert_carousel_css. rewrite Q2. cbn [negb].
      now apply Steps.py_replace_present; [apply marker_ne|]. }
    assert (K : py_in (marker ++ carousel_css)
                  (insert_clear_timers (insert_timers t3)) = true).
    { apply Steps.guarded_present; [apply cache_marker_ne | exact k5 |].
      apply Steps.guarded_present;
        [apply insert_point_ne | exact k4 | exact K3]. }
    repeat split; [exact K | |].
    + exact (Steps.py_in_trans _ _ _ s1 K).
    + exact (Steps.py_in_trans _ _ _ s2 K).
Qed.

Lemma img_then_carousel_witness :
  let t := lit "<style>" ++ img_block ++ newline ++ lit "</style>" in
  py_in marker (patch_img (patch_container t)) = true /\
  py_in (marker ++ carousel_css) (apply_patches t) = true /\
  py_in img_updated (apply_patches t) = true /\
  py_in carousel_css (apply_patches t) = true.
Proof.
  cbv zeta.
  assert (M : py_in marker
                (patch_img (patch_container
                   (lit "<style>" ++ img_block ++ newline ++ lit "</style>")))
              = true).
  { apply (proj1 (img_then_carousel _)). by_eval. }
  split; [exact M|].
  apply (proj2 (img_then_carousel _)); [by_eval | exact M].
Defined.

(** ** Insertion-only rewriting and length accounting *)

Section PyStrMore.
Context {A : Type}.
Variable eqb : A -> A -> bool.
Hypothesis eqb_eq : forall x y, eqb x y = true <-> x = y.

Local Abbreviation replace := (@PyStr.replace A eqb).
Local Abbreviation count := (@PyStr.count A eqb).
Local Abbreviation is_subseq := (@PyStr.is_subseq A eqb).

Lemma Subseq_nil_l (y : list A) : Subseq [] y.
Proof. induction y; constructor; assumption. Qed.

Lemma Subseq_refl (x : list A) : Subseq x x.
Proof. induction x; constructor; assumption. Qed.

Lemma Subseq_app (x x' y y' : list A) :
  Subseq x y -> Subseq x' y' -> Subseq (x ++ x') (y ++ y').
Proof.
  intros H H'. induction H; cbn [app]; try constructor; assumption.
Qed.

Lemma Subseq_app_r (x y : list A) : Subseq x (x ++ y).
Proof.
  rewrite <- (app_nil_r x) at 1.
  apply Subseq_app; [apply Subseq_refl | apply Subseq_nil_l].
Qed.

Lemma Subseq_trans (x y z : list A) :
  Subseq x y -> Subseq y z -> Subseq x z.
Proof.
  intros H1 H2. revert x H1.
  induction H2 as [|a y z H2 IH|a y z H2 IH]; intros x H1.
  - exact H1.
  - inversion H1; subst.
    + apply Subseq_keep, IH. assumption.
    + apply Subseq_skip, IH. assumption.
  - apply Subseq_skip, IH, H1.
Qed.

Lemma is_subseq_sound (x y : list A) :
  is_subseq x y = true -> Subseq x y.
Proof.
  revert x. induction y as [|b y IH]; intros [|a x]; cbn [PyStr.is_subseq].
  - intros _. constructor.
  - discriminate.
  - intros _. apply Subseq_nil_l.
  - destruct (eqb a b) eqn:E.
    + apply eqb_eq in E. subst b. intros H. apply Subseq_keep, IH, H.
    + intros H. apply Subseq_skip, IH, H.
Qed.

(** When [new] is [old] with characters inserted, the result of the scan
    is the text with characters inserted. *)
Lemma replace_only_inserts old new s :
  old <> [] -> Subseq old new -> Subseq s (replace old new s).
Proof.
  intros Hne H. pattern s. apply (scan_ind eqb eqb_eq old); [exact Hne | ..].
  - rewrite replace_nil by exact Hne. constructor.
  - intros r IH. rewrite (replace_match eqb eqb_eq) by exact Hne.
    now apply Subseq_app.
  - intros c r E IH. rewrite replace_mismatch by exact E.
    now apply Subseq_keep.
Qed.

Lemma count_nil old : old <> [] -> count old [] = 0.
Proof. destruct old; [congruence | reflexivity]. Qed.

(** Each occurrence counted by [count] trades [length old] characters for
    [length new]. *)
Lemma replace_length_count old new s :
  old <> [] ->
  length (replace old new s) + count old s * length old
  = length s + count old s * length new.
Proof.
  intros Hne. pattern s. apply (scan_ind eqb eqb_eq old); [exact Hne | ..].
  - now rewrite replace_nil, count_nil by exact Hne.
  - intros r IH. rewrite (replace_match eqb eqb_eq) by exact Hne.
    rewrite (count_match eqb eqb_eq) by exact Hne.
    rewrite !length_app. cbn [Nat.mul]. lia.
  - intros c r E IH. rewrite replace_mismatch by exact E.
    rewrite count_mismatch by exact E. cbn [length]. lia.
Qed.

End PyStrMore.

(** ** More comparisons of the literals, by evaluation *)

Module Overlaps.
Import Literals.

(** Once in the text, the after-blocks stay. *)
Lemma updated_block_lasting :
  lasting updated_block img_block img_updated /\
  lasting updated_block marker (marker ++ carousel_css) /\
  lasting updated_block insert_point (insert_point ++ timers_decl) /\
  lasting updated_block cache_marker (cache_marker ++ clear_fn).
Proof. repeat split; by_eval. Qed.

Lemma img_blocks_lasting :
  lasting img_block original_block updated_block /\
  lasting img_updated marker (marker ++ carousel_css) /\
  lasting img_updated insert_point (insert_point ++ timers_decl) /\
  lasting img_updated cache_marker (cache_marker ++ clear_fn).
Proof. repeat split; by_eval. Qed.

(** The anchors and probes of the script section are left alone by the
    rules that run before their own. *)
Lemma insert_point_untouched :
  untouched insert_point original_block updated_block /\
  untouched insert_point img_block img_updated /\
  untouched insert_point marker (marker ++ carousel_css).
Proof. repeat split; by_eval. Qed.

Lemma cache_marker_untouched :
  untouched cache_marker original_block updated_block /\
  untouched cache_marker img_block img_updated /\
  untouched cache_marker marker (marker ++ carousel_css) /\
  untouched cache_marker insert_point (insert_point ++ timers_decl).
Proof. repeat split; by_eval. Qed.

Lemma timers_probe_untouched :
  untouched timers_probe original_block updated_block /\
  untouched timers_probe img_block img_updated /\
  untouched timers_probe marker (marker ++ carousel_css) /\
  untouched timers_probe cache_marker (cache_marker ++ clear_fn).
Proof. repeat split; by_eval. Qed.

Lemma clear_probe_untouched :
  untouched clear_probe original_block updated_block /\
  untouched clear_probe img_block img_updated /\
  untouched clear_probe marker (marker ++ carousel_css) /\
  untouched clear_probe insert_point (insert_point ++ timers_decl).
Proof. repeat split; by_eval. Qed.

Lemma carousel_css_untouched :
  untouched carousel_css original_block updated_block /\
  untouched carousel_css img_block img_updated /\
  untouched carousel_css insert_point (insert_point ++ timers_decl) /\
  untouched carousel_css cache_marker (cache_marker ++ clear_fn).
Proof. repeat split; by_eval. Qed.

Lemma timers_decl_lasting :
  lasting (insert_point ++ timers_decl) cache_marker (cache_marker ++ clear_fn).
Proof. by_eval. Qed.

(** Each after-block is its before-block with characters inserted. *)
Lemma blocks_subseq :
  PyStr.is_subseq N.eqb original_block updated_block = true /\
  PyStr.is_subseq N.eqb img_block img_updated = true.
Proof. split; by_eval. Qed.

Lemma inserted_lengths :
  length carousel_css = 1543 /\ length timers_decl = 44 /\
  length clear_fn = 149.
Proof. repeat split; by_eval. Qed.

End Overlaps.

Module MoreSteps.
Import Literals Overlaps.

Lemma untouched_fresh p old new : untouched p old new -> fresh p old new.
Proof. intros H. apply andb_true_iff in H. apply H. Qed.

Lemma untouched_lasting p old new : untouched p old new -> lasting p old new.
Proof. intros H. apply andb_true_iff in H. apply H. Qed.

(** After a guarded insertion its probe is there exactly when the probe
    or the anchor was there before. *)
Lemma insertion_probe probe anchor ins t :
  anchor <> [] -> py_in probe (anchor ++ ins) = true ->
  py_in probe (if negb (py_in probe t)
               then py_replace t anchor (anchor ++ ins) else t)
  = py_in probe t || py_in anchor t.
Proof.
  intros Hne P. destruct (py_in probe t) eqn:E; cbn [negb orb].
  - exact E.
  - destruct (py_in anchor t) eqn:F.
    + apply (Steps.py_in_trans _ _ _ P). now apply Steps.py_replace_present.
    + now rewrite Steps.py_replace_absent.
Qed.

(** A guarded insertion has nothing to do once its probe is there or its
    anchor is not. *)
Lemma insertion_fixed probe anchor ins t :
  py_in probe t = true \/ py_in anchor t = false ->
  (if negb (py_in probe t) then py_replace t anchor (anchor ++ ins) else t) = t.
Proof.
  intros [H|H]; [now rewrite H | now apply Steps.guarded_miss].
Qed.

Lemma guarded_only_inserts (g : bool) t old new :
  old <> [] -> Subseq old new ->
  Subseq t (if g then py_replace t old new else t).
Proof.
  intros Hne H. destruct g; [|apply Subseq_refl].
  now apply (replace_only_inserts N.eqb N.eqb_eq).
Qed.

Lemma py_replace_length_count t old new :
  old <> [] ->
  length (py_replace t old new) + py_count t old * length old
  = length t + py_count t old * length new.
Proof. apply (replace_length_count N.eqb N.eqb_eq). Qed.

End MoreSteps.

(** ** Further properties of the pipeline *)

Import Overlaps.

(** X1. The texts the pipeline returns unchanged are exactly the settled
    ones: neither before-block occurs, and for each insertion the text its
    guard probes for occurs or its anchor does not. *)
Theorem apply_patches_fixed_points (t : text) :
  apply_patches t = t <-> settled t.
Proof.
  split.
  - intros E. rewrite <- E. apply Steps.apply_patches_settled.
  - apply Steps.settled_fixed.
Qed.

(** X2. Every rule step on its own is idempotent: running the same guarded
    statement twice in a row gives what running it once gives. *)
Theorem rule_step_idempotent (r : rule) (t : text) :
  rule_step r (rule_step r t) = rule_step r t.
Proof.
  destruct probes_inserted as (q3 & q4 & q5).
  destruct r; cbn [rule_step].
  - rewrite !Steps.patch_container_eq. apply Steps.py_replace_absent.
    apply (replace_self_clean N.eqb N.eqb_eq), container_clean.
  - rewrite !Steps.patch_img_eq. apply Steps.py_replace_absent.
    apply (replace_self_clean N.eqb N.eqb_eq), img_clean.
  - apply MoreSteps.insertion_fixed, Steps.insertion_settles;
      [apply marker_ne | exact q3].
  - apply MoreSteps.insertion_fixed, Steps.insertion_settles;
      [apply insert_point_ne | exact q4].
  - apply MoreSteps.insertion_fixed, Steps.insertion_settles;
      [apply cache_marker_ne | exact q5].
  - now rewrite !Steps.scaffold_get_images_id.
Qed.

(** X3. The output of a pass holds neither before-block, whatever the
    input: every occurrence of [original_block] and of [img_block] has
    been replaced and no rule brings one back. *)
Theorem before_blocks_removed (t : text) :
  py_in original_block (apply_patches t) = false /\
  py_in img_block (apply_patches t) = false.
Proof.
  destruct (Steps.apply_patches_settled t) as (H1 & H2 & _). now split.
Qed.

(** X4. A replacement that finds its before-block in the input shows in
    the output: the after-block is in the text the pass returns. *)
Theorem replacements_take_effect (t : text) :
  (py_in original_block t = true ->
   py_in updated_block (apply_patches t) = true) /\
  (py_in img_block t = true ->
   py_in img_updated (apply_patches t) = true).
Proof.
  destruct updated_block_lasting as (u2 & u3 & u4 & u5).
  destruct img_blocks_lasting as (b1 & b3 & b4 & b5).
  unfold apply_patches. rewrite Steps.scaffold_get_images_id.
  unfold insert_clear_timers, insert_timers, insert_carousel_css.
  split; intros H.
  - unfold patch_img. rewrite Steps.patch_container_eq.
    repeat (apply Steps.guarded_present;
            auto using img_block_ne, marker_ne, insert_point_ne,
              cache_marker_ne).
    now apply Steps.py_replace_present; [apply original_block_ne|].
  - rewrite Steps.patch_img_eq, Steps.patch_container_eq.
    repeat (apply Steps.guarded_present;
            auto using marker_ne, insert_point_ne, cache_marker_ne).
    apply Steps.py_replace_present; [apply img_block_ne|].
    apply Steps.py_keeps_present; auto using original_block_ne.
Qed.

Lemma replacements_take_effect_witness :
  py_in updated_block (apply_patches (original_block ++ newline)) = true /\
  py_in img_updated (apply_patches (lit "<style>" ++ img_block)) = true.
Proof.
  split.
  - apply (proj1 (replacements_take_effect _)). by_eval.
  - apply (proj2 (replacements_take_effect _)). by_eval.
Defined.

(** X5. What the three insertion guards probe for is in the output exactly
    when it was in the input or the rule's anchor was there to insert
    after: the input's [insert_point] for the timer registry, the input's
    [cache_marker] for [clearCarouselTimers], and for the carousel CSS the
    anchor in the text the two replacements hand over. *)
Theorem probes_in_output (t : text) :
  py_in timers_probe (apply_patches t)
  = py_in timers_probe t || py_in insert_point t /\
  py_in clear_probe (apply_patches t)
  = py_in clear_probe t || py_in cache_marker t /\
  py_in carousel_css (apply_patches t)
  = py_in carousel_css t || py_in marker (patch_img (patch_container t)).
Proof.
  destruct probes_inserted as (q3 & q4 & q5).
  destruct insert_point_untouched as (p1 & p2 & p3).
  destruct cache_marker_untouched as (c1 & c2 & c3 & c4).
  destruct timers_probe_untouched as (t1 & t2 & t3 & t5).
  destruct clear_probe_untouched as (l1 & l2 & l3 & l4).
  destruct carousel_css_untouched as (s1 & s2 & s4 & s5).
  unfold apply_patches. rewrite Steps.scaffold_get_images_id.
  repeat split.
  - unfold insert_clear_timers.
    rewrite Steps.guarded_untouched by auto using cache_marker_ne.
    unfold insert_timers.
    rewrite MoreSteps.insertion_probe by auto using insert_point_ne.
    unfold insert_carousel_css, patch_img, patch_container.
    now rewrite !Steps.guarded_untouched
      by auto using original_block_ne, img_block_ne, marker_ne.
  - unfold insert_clear_timers.
    rewrite MoreSteps.insertion_probe by auto using cache_marker_ne.
    unfold insert_timers, insert_carousel_css, patch_img, patch_container.
    now rewrite !Steps.guarded_untouched
      by auto using original_block_ne, img_block_ne, marker_ne, insert_point_ne.
  - unfold insert_clear_timers, insert_timers.
    rewrite !Steps.guarded_untouched
      by auto using insert_point_ne, cache_marker_ne.
    unfold insert_carousel_css.
    rewrite MoreSteps.insertion_probe by auto using marker_ne.
    f_equal. unfold patch_img, patch_container.
    now rewrite !Steps.guarded_untouched
      by auto using original_block_ne, img_block_ne.
Qed.

(** X6. When the input holds the anchor of a script insertion and not what
    its guard probes for, the output holds the anchor with the inserted
    text right after it. *)
Theorem insertion_lands_after_anchor (t : text) :
  (py_in insert_point t = true -> py_in timers_probe t = false ->
   py_in (insert_point ++ timers_decl) (apply_patches t) = true) /\
  (py_in cache_marker t = true -> py_in clear_probe t = false ->
   py_in (cache_marker ++ clear_fn) (apply_patches t) = true).
Proof.
  destruct insert_point_untouched as (p1 & p2 & p3).
  destruct cache_marker_untouched as (c1 & c2 & c3 & c4).
  destruct timers_probe_untouched as (t1 & t2 & t3 & _).
  destruct clear_probe_untouched as (l1 & l2 & l3 & l4).
  unfold apply_patches. rewrite Steps.scaffold_get_images_id.
  split; intros HA HP.
  - set (t3' := insert_carousel_css (patch_img (patch_container t))).
    assert (A : py_in timers_probe t3' = false).
    { rewrite <- HP. unfold t3', insert_carousel_css, patch_img, patch_container.
      now rewrite !Steps.guarded_untouched
        by auto using original_block_ne, img_block_ne, marker_ne. }
    assert (B : py_in insert_point t3' = true).
    { rewrite <- HA. unfold t3', insert_carousel_css, patch_img, patch_container.
      now rewrite !Steps.guarded_untouched
        by auto using original_block_ne, img_block_ne, marker_ne. }
    unfold insert_clear_timers.
    apply Steps.guarded_present;
      [apply cache_marker_ne | apply timers_decl_lasting |].
    unfold insert_timers. rewrite A. cbn [negb].
    now apply Steps.py_replace_present; [apply insert_point_ne|].
  - set (t4' := insert_timers
                  (insert_carousel_css (patch_img (patch_container t)))).
    assert (A : py_in clear_probe t4' = false).
    { rewrite <- HP.
      unfold t4', insert_timers, insert_carousel_css, patch_img,
        patch_container.
      now rewrite !Steps.guarded_untouched
        by auto using original_block_ne, img_block_ne, marker_ne,
             insert_point_ne. }
    assert (B : py_in cache_marker t4' = true).
    { rewrite <- HA.
      unfold t4', insert_timers, insert_carousel_css, patch_img,
        patch_container.
      now rewrite !Steps.guarded_untouched
        by auto using original_block_ne, img_block_ne, marker_ne,
             insert_point_ne. }
    unfold insert_clear_timers. rewrite A. cbn [negb].
    now apply Steps.py_replace_present; [apply cache_marker_ne|].
Qed.

Lemma insertion_lands_after_anchor_witness :
  py_in (insert_point ++ timers_decl)
    (apply_patches (lit "<script>" ++ insert_point)) = true /\
  py_in (cache_marker ++ clear_fn)
    (apply_patches (cache_marker ++ lit "</script>")) = true.
Proof.
  split.
  - apply (proj1 (insertion_lands_after_anchor _)); by_eval.
  - apply (proj2 (insertion_lands_after_anchor _)); by_eval.
Defined.

(** X7. The pipeline only inserts: the input is a subsequence of the
    output, so no character of the document is removed or altered. *)
Theorem apply_patches_only_inserts (t : text) :
  Subseq t (apply_patches t).
Proof.
  destruct blocks_subseq as (b1 & b2).
  apply (is_subseq_sound N.eqb N.eqb_eq) in b1, b2.
  unfold apply_patches. rewrite Steps.scaffold_get_images_id.
  unfold insert_clear_timers, insert_timers, insert_carousel_css, patch_img,
    patch_container.
  repeat (eapply Subseq_trans; [|apply MoreSteps.guarded_only_inserts]);
    auto using original_block_ne, img_block_ne, marker_ne, insert_point_ne,
      cache_marker_ne, Subseq_app_r, Subseq_refl.
Qed.

(** X8. Length accounting of each step: a replaced container block adds 62
    characters and a replaced img block 43, per occurrence counted by
    [count]; an insertion that fires adds the length of what it inserts
    (1543, 44, 149) per occurrence of its anchor, and one that does not
    fire adds nothing. *)
Theorem step_length_accounting (t : text) :
  length (patch_container t) = length t + 62 * py_count t original_block /\
  length (patch_img t) = length t + 43 * py_count t img_block /\
  length (insert_carousel_css t)
  = length t + (if py_in carousel_css t then 0 else 1543 * py_count t marker) /\
  length (insert_timers t)
  = length t
    + (if py_in timers_probe t then 0 else 44 * py_count t insert_point) /\
  length (insert_clear_timers t)
  = length t
    + (if py_in clear_probe t then 0 else 149 * py_count t cache_marker).
Proof.
  destruct lengths as (l1 & l2 & l3 & l4 & l5 & l6 & l7).
  destruct inserted_lengths as (n3 & n4 & n5).
  repeat split.
  - rewrite Steps.patch_container_eq.
    pose proof (MoreSteps.py_replace_length_count t original_block
                  updated_block original_block_ne) as E.
    rewrite l1, l2 in E. lia.
  - rewrite Steps.patch_img_eq.
    pose proof (MoreSteps.py_replace_length_count t img_block img_updated
                  img_block_ne) as E.
    rewrite l3, l4 in E. lia.
  - unfold insert_carousel_css.
    destruct (py_in carousel_css t); cbn [negb]; [lia|].
    pose proof (MoreSteps.py_replace_length_count t marker
                  (marker ++ carousel_css) marker_ne) as E.
    rewrite length_app, l5, n3 in E. lia.
  - unfold insert_timers.
    destruct (py_in timers_probe t); cbn [negb]; [lia|].
    pose proof (MoreSteps.py_replace_length_count t insert_point
                  (insert_point ++ timers_decl) insert_point_ne) as E.
    rewrite length_app, l6, n4 in E. lia.
  - unfold insert_clear_timers.
    destruct (py_in clear_probe t); cbn [negb]; [lia|].
    pose proof (MoreSteps.py_replace_length_count t cache_marker
                  (cache_marker ++ clear_fn) cache_marker_ne) as E.
    rewrite length_app, l7, n5 in E. lia.
Qed.

(** X9. The guards of the two replacements do not change what the
    statements compute: with or without [if ... in text], the result is
    the plain [replace]. *)
Theorem replacement_guards_redundant (t : text) :
  patch_container t = py_replace t original_block updated_block /\
  patch_img t = py_replace t img_block img_updated.
Proof. split; [apply Steps.patch_container_eq | apply Steps.patch_img_eq]. Qed.
